(** * hystrix-go: [Go] and the fallback invoker [tryFallback]

    A model of [hystrix/hystrix.go].  The two goroutines that [Go] starts are
    modelled as program counters over the statements of the source; the
    channels [errChan], [finished] and [executors] are bounded FIFO buffers;
    the scheduler, the timer and the caller reading the returned channel are
    the sources of non-determinism, resolved by an explicit schedule. *)

From stdpp Require Import base option list sets strings.
From Stdlib Require Import Lia.

#[local] Set Warnings "-clear-no-such-hyp".

Local Open Scope string_scope.
Local Open Scope list_scope.

(** ** Go values *)

(** A non-nil [error] interface value: its dynamic type and what [Error()]
    prints.  [errors.New] and [fmt.Errorf] (without the wrapping verb) build
    an [errorString], which carries the text and nothing else; any other
    dynamic type is a [customError].  A nilable [error] is an [option error]. *)
Inductive error : Type :=
| errorString (s : string)
| customError (ty : string) (s : string).

Definition Error (e : error) : string :=
  match e with
  | errorString s => s
  | customError _ s => s
  end.

Definition errors_New (s : string) : error := errorString s.

(** [fmt.Errorf("fallback failed with '%v'. run error was '%v'", a, b)]: the
    verb [%v] prints an error through its [Error()] method. *)
Definition fmt_Errorf (a b : error) : error :=
  errors_New ("fallback failed with '" +:+ Error a +:+ "'. run error was '" +:+ Error b +:+ "'").

#[global] Instance error_eq_dec : EqDecision error.
Proof. solve_decision. Defined.

(** [type fallbackFunc func(error) error]; a nil [fallbackFunc] is [None]. *)
Definition fallbackFunc : Type := error -> option error.

(** [type runFunc func() error], by what a call of it does: it returns, it
    panics, or it never returns. *)
Inductive runFunc : Type :=
| Returns (r : option error)
| Panics
| Blocks.

(** ** tryFallback (hystrix.go, lines 78-89) *)

Definition tryFallback (fallback : option fallbackFunc) (err : error) : option error :=
  match fallback with
  | None => None
  | Some f =>
      match f err with
      | Some fallbackErr => Some (fmt_Errorf fallbackErr err)
      | None => None
      end
  end.

(** ** Buffered channels *)

Record chan (A : Type) : Type := Chan { buf : list A; cap : nat }.
Arguments Chan {A} buf cap.
Arguments buf {A} c.
Arguments cap {A} c.

(** [make(chan A, n)] *)
Definition make {A : Type} (n : nat) : chan A := Chan [] n.

(** [ch <- v]: [None] when the send would block. *)
Definition send {A : Type} (ch : chan A) (v : A) : option (chan A) :=
  if decide (length (buf ch) < cap ch) then Some (Chan (buf ch ++ [v]) (cap ch)) else None.

(** [<-ch]: [None] when the receive would block. *)
Definition recv {A : Type} (ch : chan A) : option (A * chan A) :=
  match buf ch with
  | [] => None
  | v :: rest => Some (v, Chan rest (cap ch))
  end.

(** An executor is a token of the pool. *)
Definition Executor : Type := nat.

(** ** What an attempt does, as a trace *)

Inductive Writer : Type := Operation | Watcher.

#[global] Instance Writer_eq_dec : EqDecision Writer.
Proof. solve_decision. Defined.

Inductive Event : Type :=
| EvAcquire (executor : Executor)    (* line 42: a token was received from the pool *)
| EvRun                              (* line 45: run() was called *)
| EvPanic                            (* line 45: run() panicked *)
| EvFallback (arg : error)           (* line 83: fallback(arg) was called *)
| EvErr (w : Writer) (e : error)     (* a send on errChan completed *)
| EvFinished                         (* line 64: the send on finished completed *)
| EvRelease (executor : Executor)    (* line 43: the deferred send to the pool completed *)
| EvStop                             (* line 69: the select took case <-finished *)
| EvTimeout                          (* line 70: the select took the timer case *)
| EvRecv (e : error).                (* the caller received e from the returned channel *)

#[global] Instance Event_eq_dec : EqDecision Event.
Proof. solve_decision. Defined.

(** The arguments the fallback was called with, in order. *)
Definition fallback_calls (t : list Event) : list error :=
  omap (fun ev => match ev with EvFallback e => Some e | _ => None end) t.

(** The errors one goroutine put on [errChan], in order. *)
Definition sent (w : Writer) (t : list Event) : list error :=
  omap (fun ev => match ev with
                  | EvErr w' e => if decide (w' = w) then Some e else None
                  | _ => None
                  end) t.

(** Every error put on [errChan], in order: what the caller has read or can
    still read from the returned channel. *)
Definition delivered (t : list Event) : list error :=
  omap (fun ev => match ev with EvErr _ e => Some e | _ => None end) t.

Definition received (t : list Event) : list error :=
  omap (fun ev => match ev with EvRecv e => Some e | _ => None end) t.

Definition acquired (t : list Event) : list Executor :=
  omap (fun ev => match ev with EvAcquire x => Some x | _ => None end) t.

Definition released (t : list Event) : list Executor :=
  omap (fun ev => match ev with EvRelease x => Some x | _ => None end) t.

(** The events of the first goroutine (lines 34-65), in order. *)
Definition by_operation (ev : Event) : bool :=
  match ev with
  | EvStop | EvTimeout | EvRecv _ | EvErr Watcher _ => false
  | _ => true
  end.

Definition optrace (t : list Event) : list Event :=
  omap (fun ev => if by_operation ev then Some ev else None) t.

(** ** The two goroutines of one call of Go *)

(** Where the first goroutine (lines 34-65) stands. *)
Inductive OpPc : Type :=
| OpResolve                      (* line 35, before GetExecutorsForCommand *)
| OpSendResolveErr (err : error) (* line 37, errChan <- err *)
| OpAcquire                      (* lines 40-41, the nil test and the select *)
| OpRunning                      (* line 45, inside run() *)
| OpSendErr (err : error)        (* lines 50, 53 and 59, errChan <- ... *)
| OpSignal                       (* line 64, finished <- true *)
| OpReturn                       (* the function returns: deferred calls run *)
| OpUnwind                       (* run() panicked: deferred calls run *)
| OpExited                       (* the goroutine has returned *)
| OpCrashed.                     (* the panic reached the top of the goroutine *)

(** Where the second goroutine (lines 67-73) stands. *)
Inductive WPc : Type :=
| WSelect                        (* line 68, waiting in the select *)
| WSendTimeout                   (* line 71, errChan <- errors.New("timeout") *)
| WExited.

#[global] Instance OpPc_eq_dec : EqDecision OpPc.
Proof. solve_decision. Defined.
#[global] Instance WPc_eq_dec : EqDecision WPc.
Proof. solve_decision. Defined.

(** The arguments of one call [Go(name, run, fallback)]. *)
Record Call : Type := mkCall {
  name : string;
  run : runFunc;
  fallback : option fallbackFunc
}.

(** One call of Go in flight. *)
Record Attempt : Type := mkAttempt {
  opc : OpPc;
  wpc : WPc;
  errChan : chan error;
  finished : chan bool;
  executor : option Executor;   (* the token taken at line 42, with its defer *)
  trace : list Event
}.

Definition set_opc (pc : OpPc) (a : Attempt) : Attempt :=
  mkAttempt pc (wpc a) (errChan a) (finished a) (executor a) (trace a).
Definition set_wpc (pc : WPc) (a : Attempt) : Attempt :=
  mkAttempt (opc a) pc (errChan a) (finished a) (executor a) (trace a).
Definition set_errChan (ch : chan error) (a : Attempt) : Attempt :=
  mkAttempt (opc a) (wpc a) ch (finished a) (executor a) (trace a).
Definition set_finished (ch : chan bool) (a : Attempt) : Attempt :=
  mkAttempt (opc a) (wpc a) (errChan a) ch (executor a) (trace a).
Definition set_executor (x : option Executor) (a : Attempt) : Attempt :=
  mkAttempt (opc a) (wpc a) (errChan a) (finished a) x (trace a).
Definition emit (evs : list Event) (a : Attempt) : Attempt :=
  mkAttempt (opc a) (wpc a) (errChan a) (finished a) (executor a) (trace a ++ evs).

(** Lines 24-25 and the two [go] statements: both channels are made with
    capacity 1 and both goroutines are at their first statement. *)
Definition Go (c : Call) : Attempt :=
  mkAttempt OpResolve WSelect (make 1) (make 1) None [].

(** The one thing the scheduler, the timer or the caller does next. *)
Inductive Action : Type :=
| AOp              (* the first goroutine executes its next statement *)
| AWatchFinished   (* the select of line 68 takes case <-finished *)
| AWatchTimeout    (* the timer fires and the select takes its case *)
| AWatchSend       (* the send of line 71 completes *)
| ARecv.           (* the caller receives from the returned channel *)

(** Where the first goroutine goes with the result of [tryFallback]. *)
Definition after_fallback (r : option error) : OpPc :=
  match r with
  | Some err => OpSendErr err
  | None => OpSignal
  end.

(** The call of the fallback inside [tryFallback], if there is one. *)
Definition fallback_event (fallback : option fallbackFunc) (err : error) : list Event :=
  match fallback with
  | Some _ => [EvFallback err]
  | None => []
  end.

(** ** Concrete calls, registries and schedules *)

(** A registry that answers every name with the pool and no error. *)
Definition registry_ok : string -> bool * option error := fun _ => (true, None).

Definition boom : error := errors_New "boom".

(** A pool of capacity 1 holding its one executor. *)
Definition pool1 : chan Executor := Chan [0] 1.

(** Go("cmd", func() error { return errors.New("boom") }, nil) *)
Definition failing_call : Call := mkCall "cmd" (Returns (Some boom)) None.

(** The operation fails and its error is buffered (line 53); the timer fires
    before the select sees [finished]; the first goroutine runs to its end. *)
Definition timeout_after_error : list (nat * Action) :=
  [(0, AOp); (0, AOp); (0, AOp); (0, AOp); (0, AWatchTimeout); (0, AOp); (0, AOp)].

(** Go("cmd", run, fallback) where run fails and the fallback fails too. *)
Definition failing_fallback_call : Call :=
  mkCall "cmd" (Returns (Some boom)) (Some (fun _ => Some (errors_New "down"))).

(** The timer has fired and the timeout is buffered before the operation
    returns its error. *)
Definition error_after_timeout : list (nat * Action) :=
  [(0, AWatchTimeout); (0, AWatchSend); (0, AOp); (0, AOp); (0, AOp)].

(** A call whose operation never returns, and a second call on the same
    command without a fallback. *)
Definition busy_call : Call := mkCall "cmd" Blocks None.
Definition plain_call : Call := mkCall "cmd" (Returns None) None.

(** Call 0 takes the only executor; call 1 then runs to its end. *)
Definition rejected_schedule : list (nat * Action) :=
  [(0, AOp); (0, AOp); (1, AOp); (1, AOp); (1, AOp); (1, AOp); (1, AWatchFinished)].

(** Go("cmd", run, fallback) where run never returns and the fallback would
    recover from any error. *)
Definition slow_call : Call := mkCall "cmd" Blocks (Some (fun _ => None)).

Definition timeout_schedule : list (nat * Action) :=
  [(0, AOp); (0, AOp); (0, AWatchTimeout); (0, AWatchSend)].

(** Go("cmd", func() error { panic("oops") }, nil) *)
Definition panicking_call : Call := mkCall "cmd" Panics None.

Definition panic_schedule : list (nat * Action) :=
  [(0, AOp); (0, AOp); (0, AOp); (0, AOp)].

(** A registry that answers an error together with the pool. *)
Definition bad_config : error := errors_New "bad config".
Definition registry_both : string -> bool * option error := fun _ => (true, Some bad_config).

Definition recovering_call : Call := mkCall "cmd" (Returns (Some boom)) (Some (fun _ => None)).



(** A registry that answers an error and a nil pool. *)
Definition registry_unknown : string -> bool * option error :=
  fun _ => (false, Some bad_config).


(** ** The steps of the goroutines *)

Section Hystrix.

(** [GetExecutorsForCommand] is not part of this file of the repository.  It
    is taken as given: for a command name it answers whether [executors] is
    non-nil (it is then the pool channel of the system below) and [err]. *)
Variable GetExecutorsForCommand : string -> bool * option error.

(** The next statement of the first goroutine.  [executors] is the pool. *)
Definition op_step (c : Call) (executors : chan Executor) (a : Attempt)
  : option (chan Executor * Attempt) :=
  match opc a with
  | OpResolve =>
      match snd (GetExecutorsForCommand (name c)) with
      | Some err => Some (executors, set_opc (OpSendResolveErr err) a)
      | None => Some (executors, set_opc OpAcquire a)
      end
  | OpSendResolveErr err =>
      ch ← send (errChan a) err;
      Some (executors, set_opc OpAcquire (set_errChan ch (emit [EvErr Operation err] a)))
  | OpAcquire =>
      if fst (GetExecutorsForCommand (name c)) then
        match recv executors with
        | Some (x, executors') =>
            Some (executors',
                  set_opc OpRunning (set_executor (Some x) (emit [EvAcquire x; EvRun] a)))
        | None =>
            let err := errors_New "unable to grab executor" in
            Some (executors,
                  set_opc (after_fallback (tryFallback (fallback c) err))
                          (emit (fallback_event (fallback c) err) a))
        end
      else Some (executors, set_opc OpSignal a)
  | OpRunning =>
      match run c with
      | Returns None => Some (executors, set_opc OpSignal a)
      | Returns (Some runErr) =>
          match fallback c with
          | Some _ =>
              Some (executors,
                    set_opc (after_fallback (tryFallback (fallback c) runErr))
                            (emit (fallback_event (fallback c) runErr) a))
          | None => Some (executors, set_opc (OpSendErr runErr) a)
          end
      | Panics => Some (executors, set_opc OpUnwind (emit [EvPanic] a))
      | Blocks => None
      end
  | OpSendErr err =>
      ch ← send (errChan a) err;
      Some (executors, set_opc OpSignal (set_errChan ch (emit [EvErr Operation err] a)))
  | OpSignal =>
      ch ← send (finished a) true;
      Some (executors, set_opc OpReturn (set_finished ch (emit [EvFinished] a)))
  | OpReturn =>
      match executor a with
      | Some x =>
          executors' ← send executors x;
          Some (executors', set_opc OpExited (set_executor None (emit [EvRelease x] a)))
      | None => Some (executors, set_opc OpExited a)
      end
  | OpUnwind =>
      match executor a with
      | Some x =>
          executors' ← send executors x;
          Some (executors', set_opc OpCrashed (set_executor None (emit [EvRelease x] a)))
      | None => Some (executors, set_opc OpCrashed a)
      end
  | OpExited => None
  | OpCrashed => None
  end.

(** One step of an attempt.  A panic that nothing recovers ends the program:
    once the first goroutine is [OpCrashed] nothing moves any more. *)
Definition astep (c : Call) (executors : chan Executor) (a : Attempt) (act : Action)
  : option (chan Executor * Attempt) :=
  if decide (opc a = OpCrashed) then None else
  match act with
  | AOp => op_step c executors a
  | AWatchFinished =>
      match wpc a with
      | WSelect =>
          '(_, ch) ← recv (finished a);
          Some (executors, set_wpc WExited (set_finished ch (emit [EvStop] a)))
      | _ => None
      end
  | AWatchTimeout =>
      match wpc a with
      | WSelect => Some (executors, set_wpc WSendTimeout (emit [EvTimeout] a))
      | _ => None
      end
  | AWatchSend =>
      match wpc a with
      | WSendTimeout =>
          let err := errors_New "timeout" in
          ch ← send (errChan a) err;
          Some (executors, set_wpc WExited (set_errChan ch (emit [EvErr Watcher err] a)))
      | _ => None
      end
  | ARecv =>
      '(e, ch) ← recv (errChan a);
      Some (executors, set_errChan ch (emit [EvRecv e] a))
  end.

(** ** The attempts on one command and its pool *)

Record System : Type := mkSystem {
  pool : chan Executor;
  attempts : list Attempt
}.

Definition crashed (s : System) : bool :=
  existsb (fun a => bool_decide (opc a = OpCrashed)) (attempts s).

(** The calls [cs] have all been made; none has taken a step yet. *)
Definition start (cs : list Call) (p : chan Executor) : System :=
  mkSystem p (Go <$> cs).

(** Attempt [i] takes the step [act]. *)
Definition sstep (cs : list Call) (s : System) (ia : nat * Action) : option System :=
  if crashed s then None else
  c ← cs !! ia.1;
  a ← attempts s !! ia.1;
  '(p', a') ← astep c (pool s) a ia.2;
  Some (mkSystem p' (<[ia.1 := a']> (attempts s))).

Fixpoint execute (cs : list Call) (s : System) (sched : list (nat * Action)) : option System :=
  match sched with
  | [] => Some s
  | ia :: rest => s' ← sstep cs s ia; execute cs s' rest
  end.

(** Attempt [i], the call [c], is in state [a] after the schedule [sched]
    from the start with pool [p]. *)
Definition at_state (cs : list Call) (p : chan Executor) (sched : list (nat * Action))
    (i : nat) (c : Call) (a : Attempt) : Prop :=
  exists s, execute cs (start cs p) sched = Some s /\ cs !! i = Some c /\ attempts s !! i = Some a.

(** The state after a schedule (the start when the schedule cannot run). *)
Definition after (cs : list Call) (p : chan Executor) (sched : list (nat * Action)) : System :=
  default (start cs p) (execute cs (start cs p) sched).

(** The state of attempt [i] after a schedule. *)
Definition attempt_after (cs : list Call) (p : chan Executor) (sched : list (nat * Action))
    (i : nat) : Attempt :=
  default (Go failing_call) (attempts (after cs p sched) !! i).

(** ** Invariants of an attempt and of the system *)

Definition timeout_err : error := errors_New "timeout".

(** The first goroutine is past line 64. *)
Definition signalled (pc : OpPc) : bool :=
  match pc with
  | OpReturn | OpExited => true
  | _ => false
  end.

Record chan_ok (a : Attempt) : Prop := {
  errChan_cap : cap (errChan a) = 1;
  finished_cap : cap (finished a) = 1;
  delivered_eq : delivered (trace a) = received (trace a) ++ buf (errChan a);
  watcher_ok :
    match wpc a with
    | WSelect => (EvTimeout ∉ trace a) ∧ (EvStop ∉ trace a) ∧ sent Watcher (trace a) = []
    | WSendTimeout => (EvTimeout ∈ trace a) ∧ (EvStop ∉ trace a) ∧ sent Watcher (trace a) = []
    | WExited =>
        ((EvStop ∈ trace a) ∧ (EvTimeout ∉ trace a) ∧ sent Watcher (trace a) = []) ∨
        ((EvTimeout ∈ trace a) ∧ (EvStop ∉ trace a) ∧ sent Watcher (trace a) = [timeout_err])
    end;
  finished_ok :
    if signalled (opc a)
    then (EvFinished ∈ trace a) ∧
         (((EvStop ∉ trace a) ∧ buf (finished a) = [true]) ∨
          ((EvStop ∈ trace a) ∧ buf (finished a) = []))
    else (EvFinished ∉ trace a) ∧ (EvStop ∉ trace a) ∧ buf (finished a) = []
}.

(** How the select of line 41 went, if it was reached with a pool. *)
Inductive Slot : Type :=
| NoPool                       (* executors == nil *)
| Rejected                     (* the default case *)
| Acquired (x : Executor).     (* case executor := <-executors *)

Definition rejection_err : error := errors_New "unable to grab executor".

(** Lines 40-61 read sequentially: the events up to the send on [errChan],
    and the error that is sent, if any. *)
Definition select_body (c : Call) (slot : Slot) : list Event * option error :=
  match slot with
  | NoPool => ([], None)
  | Rejected => (fallback_event (fallback c) rejection_err, tryFallback (fallback c) rejection_err)
  | Acquired x =>
      match run c with
      | Returns (Some runErr) =>
          match fallback c with
          | Some _ => ([EvAcquire x; EvRun; EvFallback runErr], tryFallback (fallback c) runErr)
          | None => ([EvAcquire x; EvRun], Some runErr)
          end
      | _ => ([EvAcquire x; EvRun], None)
      end
  end.

Definition slot_executor (slot : Slot) : option Executor :=
  match slot with
  | Acquired x => Some x
  | _ => None
  end.

Definition err_events (r : option error) : list Event :=
  match r with
  | Some e => [EvErr Operation e]
  | None => []
  end.

Definition release_events (slot : Slot) : list Event :=
  match slot with
  | Acquired x => [EvRelease x]
  | _ => []
  end.

Definition acquire_events (slot : Slot) : list Event :=
  match slot with
  | Acquired x => [EvAcquire x; EvRun]
  | _ => []
  end.

(** The events of the first goroutine when it stands at [pc]. *)
Definition op_events (c : Call) (slot : Slot) (pc : OpPc) : list Event :=
  let e0 := err_events (GetExecutorsForCommand (name c)).2 in
  let g := select_body c slot in
  match pc with
  | OpResolve | OpSendResolveErr _ => []
  | OpAcquire => e0
  | OpRunning => e0 ++ acquire_events slot
  | OpUnwind => e0 ++ acquire_events slot ++ [EvPanic]
  | OpCrashed => e0 ++ acquire_events slot ++ [EvPanic] ++ release_events slot
  | OpSendErr _ => e0 ++ g.1
  | OpSignal => e0 ++ g.1 ++ err_events g.2
  | OpReturn => e0 ++ g.1 ++ err_events g.2 ++ [EvFinished]
  | OpExited => e0 ++ g.1 ++ err_events g.2 ++ [EvFinished] ++ release_events slot
  end.

(** The registry's answer and [run] allow the path [slot]. *)
Definition slot_ok (c : Call) (slot : Slot) : Prop :=
  match slot with
  | NoPool => (GetExecutorsForCommand (name c)).1 = false
  | Rejected => (GetExecutorsForCommand (name c)).1 = true
  | Acquired _ => (GetExecutorsForCommand (name c)).1 = true ∧ ∃ r, run c = Returns r
  end.

Definition op_valid (c : Call) (slot : Slot) (pc : OpPc) : Prop :=
  match pc with
  | OpResolve | OpAcquire => True
  | OpSendResolveErr e => (GetExecutorsForCommand (name c)).2 = Some e
  | OpRunning => (GetExecutorsForCommand (name c)).1 = true ∧ ∃ x, slot = Acquired x
  | OpUnwind | OpCrashed =>
      (GetExecutorsForCommand (name c)).1 = true ∧ (∃ x, slot = Acquired x) ∧ run c = Panics
  | OpSendErr e => slot_ok c slot ∧ (select_body c slot).2 = Some e
  | OpSignal | OpReturn | OpExited => slot_ok c slot
  end.

(** The token the first goroutine holds when it stands at [pc]. *)
Definition holds (slot : Slot) (pc : OpPc) : option Executor :=
  match pc with
  | OpRunning | OpUnwind | OpSendErr _ | OpSignal | OpReturn => slot_executor slot
  | _ => None
  end.

Definition op_ok (c : Call) (a : Attempt) : Prop :=
  ∃ slot, op_valid c slot (opc a) ∧
          optrace (trace a) = op_events c slot (opc a) ∧
          executor a = holds slot (opc a).

(** Every attempt of every system satisfies the three invariants. *)
Definition attempt_ok (c : Call) (a : Attempt) : Prop := chan_ok a ∧ op_ok c a.

(** The tokens the attempts hold. *)
Definition held (l : list Attempt) : list Executor := omap executor l.

(** What holds of the whole system after any schedule. *)
Record system_ok (cs : list Call) (p : chan Executor) (s : System) : Prop := {
  pool_cap : cap (pool s) = cap p;
  pool_tokens : buf (pool s) ++ held (attempts s) ≡ₚ buf p;
  attempts_ok : forall i c a, cs !! i = Some c -> attempts s !! i = Some a -> attempt_ok c a
}.

(** The first goroutine is past line 37. *)
Definition resolved (pc : OpPc) : bool :=
  match pc with
  | OpResolve | OpSendResolveErr _ => false
  | _ => true
  end.

(** What a goroutine that stands before a send on [errChan] keeps. *)
Definition same_wait (a a' : Attempt) : Prop :=
  errChan a' = errChan a ∧
  (wpc a = WSendTimeout -> wpc a' = WSendTimeout) ∧
  (forall e, opc a = OpSendErr e -> opc a' = OpSendErr e ∧ executor a' = executor a) ∧
  (forall e, opc a = OpSendResolveErr e -> opc a' = OpSendResolveErr e).

(** ** Schedules and steps *)

Lemma execute_app cs s l1 l2 :
  execute cs s (l1 ++ l2) = s' ← execute cs s l1; execute cs s' l2.
Proof.
  revert s. induction l1 as [|ia l1 IH]; intros s; simpl; [reflexivity|].
  destruct (sstep cs s ia) as [s1|]; simpl; [apply IH | reflexivity].
Qed.

Lemma sstep_length cs s ia s' :
  sstep cs s ia = Some s' -> length (attempts s') = length (attempts s).
Proof.
  unfold sstep. intros H. case_match; [discriminate|].
  destruct (cs !! ia.1); simpl in H; [|discriminate].
  destruct (attempts s !! ia.1); simpl in H; [|discriminate].
  destruct (astep c (pool s) a ia.2) as [[p' a']|]; simpl in H; [|discriminate].
  injection H as <-. simpl. apply length_insert.
Qed.

(** What one step of the system is: one attempt takes one step. *)
Lemma sstep_inv cs s ia s' :
  sstep cs s ia = Some s' ->
  exists c a a', crashed s = false /\ cs !! ia.1 = Some c /\ attempts s !! ia.1 = Some a /\
    astep c (pool s) a ia.2 = Some (pool s', a') /\ attempts s' = <[ia.1 := a']> (attempts s).
Proof.
  unfold sstep. intros H. destruct (crashed s); [discriminate|].
  destruct (cs !! ia.1) as [c|]; simpl in H; [|discriminate].
  destruct (attempts s !! ia.1) as [a|] eqn:Ha; simpl in H; [|discriminate].
  destruct (astep c (pool s) a ia.2) as [[p' a']|] eqn:Hs; simpl in H; [|discriminate].
  injection H as <-. simpl. exists c, a, a'. auto.
Qed.

(** A property of single attempts that every step of an attempt keeps, whatever
    the pool holds at that moment, is true of every attempt of every system. *)
Lemma attempt_invariant (I : Call -> Attempt -> Prop) :
  (forall c, I c (Go c)) ->
  (forall c p a act p' a', I c a -> astep c p a act = Some (p', a') -> I c a') ->
  forall cs p sched i c a, at_state cs p sched i c a -> I c a.
Proof.
  intros Hinit Hstep cs p sched i c a (s & Hex & Hc & Ha).
  assert (Hgen : forall sched s0 s,
             (forall i c a, cs !! i = Some c -> attempts s0 !! i = Some a -> I c a) ->
             execute cs s0 sched = Some s ->
             forall i c a, cs !! i = Some c -> attempts s !! i = Some a -> I c a).
  { clear s Hex Ha Hc. clear i c a. intros sched'. induction sched' as [|ia sched' IH]; intros s0 s H0 Hex; simpl in Hex.
    - injection Hex as <-. exact H0.
    - destruct (sstep cs s0 ia) as [s1|] eqn:Hs; simpl in Hex; [|discriminate].
      apply (IH s1 s); [|exact Hex].
      destruct (sstep_inv _ _ _ _ Hs) as (c0 & a0 & a0' & _ & Hc0 & Ha0 & Hst & Hatt).
      destruct ia as [j act]; simpl in *.
      intros i c a Hc Ha. rewrite Hatt in Ha.
      destruct (decide (j = i)) as [->|Hne].
      + rewrite list_lookup_insert_eq in Ha by (eapply lookup_lt_Some; eauto).
        injection Ha as <-. rewrite Hc in Hc0. injection Hc0 as <-.
        eapply Hstep; [|exact Hst]. eapply H0; eauto.
      + rewrite list_lookup_insert_ne in Ha by done. eapply H0; eauto. }
  eapply (Hgen sched (start cs p) s); eauto.
  intros j c' a' Hc' Ha'. unfold start in Ha'. simpl in Ha'.
  rewrite list_lookup_fmap, Hc' in Ha'. simpl in Ha'. injection Ha' as <-. apply Hinit.
Qed.

Lemma send_Some {A} (ch ch' : chan A) (v : A) :
  send ch v = Some ch' -> length (buf ch) < cap ch ∧ ch' = Chan (buf ch ++ [v]) (cap ch).
Proof. unfold send. intros H. case_decide; [|discriminate]. injection H as <-. auto. Qed.

Lemma recv_Some {A} (ch ch' : chan A) (v : A) :
  recv ch = Some (v, ch') -> buf ch = v :: buf ch' ∧ cap ch' = cap ch.
Proof.
  unfold recv. intros H. destruct (buf ch) as [|x rest]; [discriminate|].
  injection H as <- <-. auto.
Qed.

Ltac chan_inv :=
  repeat match goal with
  | H : send _ _ = Some _ |- _ => apply send_Some in H; destruct H as [? ->]
  | H : recv ?ch = Some (_, _) |- _ => apply recv_Some in H; destruct H as [? ?]
  end.

(** Case analysis on one step of an attempt. *)
Ltac step_inv H :=
  unfold astep in H; case_decide; [discriminate|];
  match type of H with context [match ?act with AOp => _ | _ => _ end] => destruct act end;
  simpl in H; unfold op_step in H;
  repeat match type of H with
         | context [match ?x with _ => _ end] => destruct x eqn:?; simpl in H; try discriminate
         | context [mbind _ ?x] => destruct x as [?|] eqn:?; simpl in H; try discriminate
         | context [let '(_, _) := ?x in _] => destruct x
         | context [fallback_event ?f _] => destruct f eqn:?; simpl in H
         end;
  try (injection H as <- <-); chan_inv.

Lemma delivered_app t1 t2 : delivered (t1 ++ t2) = delivered t1 ++ delivered t2.
Proof. apply omap_app. Qed.
Lemma received_app t1 t2 : received (t1 ++ t2) = received t1 ++ received t2.
Proof. apply omap_app. Qed.
Lemma sent_app w t1 t2 : sent w (t1 ++ t2) = sent w t1 ++ sent w t2.
Proof. apply omap_app. Qed.
Lemma fallback_calls_app t1 t2 : fallback_calls (t1 ++ t2) = fallback_calls t1 ++ fallback_calls t2.
Proof. apply omap_app. Qed.
Lemma acquired_app t1 t2 : acquired (t1 ++ t2) = acquired t1 ++ acquired t2.
Proof. apply omap_app. Qed.
Lemma released_app t1 t2 : released (t1 ++ t2) = released t1 ++ released t2.
Proof. apply omap_app. Qed.
Lemma optrace_app t1 t2 : optrace (t1 ++ t2) = optrace t1 ++ optrace t2.
Proof. apply omap_app. Qed.

(** Push the projections of a trace through its last events. *)
Ltac trace_simpl :=
  rewrite ?delivered_app, ?received_app, ?sent_app, ?fallback_calls_app,
    ?acquired_app, ?released_app, ?optrace_app;
  simpl; rewrite ?app_nil_r.

(** *** The channels of an attempt and the second goroutine *)

Lemma chan_ok_Go c : chan_ok (Go c).
Proof. split; simpl; auto; set_solver. Qed.

Lemma chan_ok_step c p a act p' a' :
  chan_ok a -> astep c p a act = Some (p', a') -> chan_ok a'.
Proof.
  intros [H1 H2 H3 H4 H5] H. destruct a as [pc w ec fin ex t]; simpl in *.
  step_inv H; simpl in *; subst.
  all: split; simpl; auto; try congruence.
  all: trace_simpl; auto.
  all: try (rewrite H3, <- ?app_assoc; reflexivity).
  all: try (rewrite H3, H, <- ?app_assoc; reflexivity).
  all: unfold timeout_err in *.
  all: try (try destruct w; try destruct (signalled pc); set_unfold; naive_solver).
  - destruct H5 as (? & ? & ->). set_unfold; naive_solver.
  - destruct (signalled pc).
    + destruct H5 as (? & [[? Hb]|[? Hb]]); rewrite Hb in *; [|discriminate].
      assert (buf c0 = []) by congruence. set_unfold; naive_solver.
    + destruct H5 as (? & ? & Hb). rewrite Hb in *. discriminate.
  - destruct H4 as (? & ? & ->). right. set_unfold; naive_solver.
Qed.

(** *** The first goroutine follows the text of lines 34-65 *)

Lemma op_ok_Go c : op_ok c (Go c).
Proof. exists NoPool. simpl. auto. Qed.

Ltac rewrite_eqs :=
  repeat match goal with
         | H : ?x = _ |- context [?x] => rewrite H; simpl
         end.

Ltac op_close slot :=
  exists slot; unfold slot_ok, select_body, tryFallback, rejection_err in *; simpl in *;
  destruct_and?; split_and!; rewrite_eqs; simpl; rewrite <- ?app_assoc, ?app_nil_r; simpl; eauto.

Lemma op_ok_step c p a act p' a' :
  op_ok c a -> astep c p a act = Some (p', a') -> op_ok c a'.
Proof.
  intros (slot & Hv & Ht & Hx) H. destruct a as [pc w ec fin ex t]; simpl in *.
  step_inv H; simpl in *; subst.
  all: unfold op_ok, op_valid, op_events, holds in *; simpl in *; trace_simpl.
  all: try (exists slot; split_and!; simpl; auto; fail).
  all: destruct_and?; repeat match goal with H : ∃ _, _ |- _ => destruct H end; subst.
  all: try solve [op_close slot].
  all: try match goal with x : Executor |- _ => solve [op_close (Acquired x)] end.
  all: try solve [op_close Rejected].
  all: try solve [op_close NoPool].
  all: try (destruct slot; simpl in *; simplify_eq).
  all: try match goal with x : Executor |- _ => solve [op_close (Acquired x)] end.
  all: try solve [op_close Rejected].
  all: try solve [op_close NoPool].
  all: simpl in *; simplify_eq.
  match goal with x : Executor |- _ => op_close (Acquired x) end.
Qed.

(** *** Projections of the first goroutine's events *)

Lemma sent_Operation_optrace t : sent Operation (optrace t) = sent Operation t.
Proof.
  induction t as [|ev t IH]; [reflexivity|].
  destruct ev as [| | | |[] ?| | | | |]; simpl; unfold optrace, sent in *; simpl; congruence.
Qed.

Lemma fallback_calls_optrace t : fallback_calls (optrace t) = fallback_calls t.
Proof.
  induction t as [|ev t IH]; [reflexivity|].
  destruct ev as [| | | |[] ?| | | | |]; simpl; unfold optrace, fallback_calls in *; simpl; congruence.
Qed.

Lemma acquired_optrace t : acquired (optrace t) = acquired t.
Proof.
  induction t as [|ev t IH]; [reflexivity|].
  destruct ev as [| | | |[] ?| | | | |]; simpl; unfold optrace, acquired in *; simpl; congruence.
Qed.

Lemma released_optrace t : released (optrace t) = released t.
Proof.
  induction t as [|ev t IH]; [reflexivity|].
  destruct ev as [| | | |[] ?| | | | |]; simpl; unfold optrace, released in *; simpl; congruence.
Qed.

Lemma elem_of_optrace ev t : by_operation ev = true -> ev ∈ optrace t <-> ev ∈ t.
Proof.
  intros Hev. unfold optrace. rewrite list_elem_of_omap. split.
  - intros (x & Hx & Hf). destruct (by_operation x); congruence.
  - intros Hin. exists ev. rewrite Hev. auto.
Qed.

Lemma at_state_ok cs p sched i c a :
  at_state cs p sched i c a -> attempt_ok c a.
Proof.
  apply (attempt_invariant attempt_ok).
  - intros c0. split; [apply chan_ok_Go | apply op_ok_Go].
  - intros c0 p0 a0 act p' a' [H1 H2] Hs. split.
    + eapply chan_ok_step; eauto.
    + eapply op_ok_step; eauto.
Qed.

(** *** Tokens *)

(** Unfold the sequential reading of the first goroutine on every path. *)
Ltac path_cases c slot :=
  unfold op_events, op_valid, slot_ok, select_body, tryFallback, holds, rejection_err in *;
  destruct slot; simpl in *;
  destruct (GetExecutorsForCommand (name c)) as [? [?|]]; simpl in *;
  destruct (run c) as [[?|]| |]; simpl in *;
  destruct (fallback c) as [?|]; simpl in *;
  repeat match goal with
         | |- context [match ?f ?e with Some _ => _ | None => _ end] =>
             destruct (f e) eqn:?; simpl in *
         | H : context [match ?f ?e with Some _ => _ | None => _ end] |- _ =>
             destruct (f e) eqn:?; simpl in *
         end.

Lemma op_ok_tokens c a :
  op_ok c a ->
  length (acquired (trace a)) <= 1 ∧
  acquired (trace a) = released (trace a) ++ option_list (executor a) ∧
  (opc a = OpExited ∨ opc a = OpCrashed -> executor a = None).
Proof.
  intros (slot & Hv & Ht & Hx).
  rewrite <- acquired_optrace, <- released_optrace, Ht, Hx.
  destruct (opc a); path_cases c slot; trace_simpl; split_and!; auto; try lia; naive_solver.
Qed.

(** One step moves at most one token between the pool and the attempt. *)
Lemma astep_pool c p a act p' a' :
  op_ok c a -> astep c p a act = Some (p', a') ->
  cap p' = cap p ∧ buf p' ++ option_list (executor a') ≡ₚ buf p ++ option_list (executor a).
Proof.
  intros (slot & Hv & Ht & Hx) H. destruct a as [pc w ec fin ex t]; simpl in *.
  step_inv H; simpl in *; subst; simpl; split; auto.
  all: rewrite ?app_nil_r; try reflexivity.
  rewrite H. symmetry. apply Permutation_cons_append.
Qed.

Lemma held_insert l i a a' :
  l !! i = Some a ->
  exists rest, held (<[i := a']> l) ≡ₚ option_list (executor a') ++ rest ∧
               held l ≡ₚ option_list (executor a) ++ rest.
Proof.
  intros Hi. exists (held (take i l) ++ held (drop (S i) l)). unfold held. split.
  - rewrite insert_take_drop by (eapply lookup_lt_Some; eauto).
    rewrite omap_app. simpl.
    destruct (executor a'); simpl; [|reflexivity]. symmetry. apply Permutation_middle.
  - rewrite <- (take_drop_middle l i a Hi) at 1.
    rewrite omap_app. simpl.
    destruct (executor a); simpl; [|reflexivity]. symmetry. apply Permutation_middle.
Qed.

Lemma execute_invariant (I : System -> Prop) cs :
  (forall s ia s', I s -> sstep cs s ia = Some s' -> I s') ->
  forall sched s s', I s -> execute cs s sched = Some s' -> I s'.
Proof.
  intros Hstep sched. induction sched as [|ia sched IH]; intros s s' Hs Hex; simpl in Hex.
  - injection Hex as <-. exact Hs.
  - destruct (sstep cs s ia) as [s1|] eqn:E; simpl in Hex; [|discriminate].
    eapply IH; [|exact Hex]. eapply Hstep; eauto.
Qed.

Lemma system_ok_execute cs p sched s :
  execute cs (start cs p) sched = Some s -> system_ok cs p s.
Proof.
  apply (execute_invariant (system_ok cs p)).
  - clear. intros s [j act] s' [Hc Hp Ha] Hs.
    destruct (sstep_inv _ _ _ _ Hs) as (c & a & a' & _ & Hcj & Haj & Hst & Hatt). simpl in *.
    destruct (Ha _ _ _ Hcj Haj) as [Hch Hop].
    destruct (astep_pool _ _ _ _ _ _ Hop Hst) as [Hcap Hperm].
    split.
    + congruence.
    + rewrite Hatt. destruct (held_insert (attempts s) j a a' Haj) as (rest & -> & Hold).
      rewrite Hold in Hp. rewrite <- Hp.
      rewrite !(assoc (++)). rewrite Hperm. reflexivity.
    + intros i c0 a0 Hc0 Ha0. rewrite Hatt in Ha0.
      destruct (decide (j = i)) as [->|Hne].
      * rewrite list_lookup_insert_eq in Ha0 by (eapply lookup_lt_Some; eauto).
        injection Ha0 as <-. rewrite Hcj in Hc0. injection Hc0 as <-.
        split; [eapply chan_ok_step | eapply op_ok_step]; eauto.
      * rewrite list_lookup_insert_ne in Ha0 by done. eauto.
  - split; simpl; auto.
    + assert (Hh : held (Go <$> cs) = []) by (induction cs; simpl; auto).
      rewrite Hh, app_nil_r. reflexivity.
    + intros i c a Hc Ha. rewrite list_lookup_fmap, Hc in Ha. injection Ha as <-.
      split; [apply chan_ok_Go | apply op_ok_Go].
Qed.

(** *** What reaches the caller *)

Lemma delivered_without_watcher t :
  sent Watcher t = [] -> delivered t = sent Operation t.
Proof.
  induction t as [|ev t IH]; [reflexivity|].
  destruct ev as [| | | |[] ?| | | | |]; unfold delivered, sent in *; simpl; intros H;
    try (apply IH; exact H); try discriminate.
  f_equal. apply IH. exact H.
Qed.

Lemma no_timeout_no_watcher_send a :
  chan_ok a -> EvTimeout ∉ trace a -> sent Watcher (trace a) = [].
Proof.
  intros [_ _ _ Hw _] Hn. destruct (wpc a); naive_solver.
Qed.

Lemma delivered_no_timeout c a :
  attempt_ok c a -> EvTimeout ∉ trace a -> delivered (trace a) = sent Operation (trace a).
Proof.
  intros [Hc _] Hn. apply delivered_without_watcher. by apply no_timeout_no_watcher_send.
Qed.



Lemma nil_pool_path c a :
  op_ok c a -> (GetExecutorsForCommand (name c)).1 = false ->
  (EvRun ∉ trace a) ∧ fallback_calls (trace a) = [] ∧ acquired (trace a) = [] ∧
  sent Operation (trace a) =
    (if resolved (opc a) then option_list (GetExecutorsForCommand (name c)).2 else []).
Proof.
  intros (slot & Hv & Ht & Hx) Hg.
  rewrite <- (elem_of_optrace EvRun) by reflexivity.
  rewrite <- sent_Operation_optrace, <- fallback_calls_optrace, <- acquired_optrace, Ht.
  clear Ht.
  destruct (opc a); path_cases c slot; simplify_eq; split_and!; try reflexivity;
    try (set_unfold; naive_solver).
Qed.

Lemma panic_path c a :
  op_ok c a -> EvPanic ∈ trace a ->
  run c = Panics ∧ (opc a = OpUnwind ∨ opc a = OpCrashed) ∧
  fallback_calls (trace a) = [] ∧
  sent Operation (trace a) = option_list (GetExecutorsForCommand (name c)).2.
Proof.
  intros (slot & Hv & Ht & Hx) Hin.
  rewrite <- (elem_of_optrace EvPanic) in Hin by reflexivity.
  rewrite <- sent_Operation_optrace, <- fallback_calls_optrace, Ht.
  rewrite Ht in Hin. clear Ht.
  destruct (opc a); path_cases c slot; simplify_eq; split_and!; try reflexivity;
    try (set_unfold; naive_solver).
Qed.

(** The fallback is called at most once, by the first goroutine, with the
    rejection or with the error that [run] returned. *)
Lemma fallback_calls_path c a :
  op_ok c a ->
  fallback_calls (trace a) = [] ∨
  (fallback_calls (trace a) = [rejection_err] ∧ EvRun ∉ trace a) ∨
  (exists runErr, run c = Returns (Some runErr) ∧ fallback_calls (trace a) = [runErr]).
Proof.
  intros (slot & Hv & Ht & Hx).
  rewrite <- (elem_of_optrace EvRun) by reflexivity.
  rewrite <- fallback_calls_optrace, Ht. clear Ht.
  destruct (opc a); path_cases c slot; simplify_eq; try (left; reflexivity);
    try (right; left; split; [reflexivity | set_unfold; naive_solver]);
    try (right; right; eexists; split; reflexivity).
Qed.

(** Without a fallback a rejection puts nothing on [errChan]. *)
Lemma rejection_path c a :
  op_ok c a -> fallback c = None -> EvRun ∉ trace a ->
  sent Operation (trace a) = [] ∨
  sent Operation (trace a) = option_list (GetExecutorsForCommand (name c)).2.
Proof.
  intros (slot & Hv & Ht & Hx) Hf Hin.
  rewrite <- (elem_of_optrace EvRun) in Hin by reflexivity.
  rewrite <- sent_Operation_optrace, Ht.
  rewrite Ht in Hin. clear Ht.
  destruct (opc a); path_cases c slot; simplify_eq; auto;
    try (set_unfold; naive_solver).
Qed.

(** *** A full errChan that nobody reads *)

Lemma astep_blocked c p a act p' a' :
  cap (errChan a) = 1 -> length (buf (errChan a)) = 1 -> act ≠ ARecv ->
  astep c p a act = Some (p', a') -> same_wait a a'.
Proof.
  intros Hc Hl Hact H. destruct a as [pc w ec fin ex t]; simpl in *.
  unfold same_wait.
  step_inv H; simpl in *; subst; simpl; try lia; try congruence.
  all: split_and!; auto; try congruence; intros; try discriminate.
Qed.

Lemma blocked_without_recv cs sched : forall s s' i a,
  attempts s !! i = Some a ->
  cap (errChan a) = 1 -> length (buf (errChan a)) = 1 ->
  (i, ARecv) ∉ sched -> execute cs s sched = Some s' ->
  exists a', attempts s' !! i = Some a' ∧ same_wait a a'.
Proof.
  induction sched as [|[j act] sched IH]; intros s s' i a Ha Hc Hl Hn Hex; simpl in Hex.
  - injection Hex as <-. exists a. unfold same_wait. naive_solver.
  - destruct (sstep cs s (j, act)) as [s1|] eqn:Hs; simpl in Hex; [|discriminate].
    destruct (sstep_inv _ _ _ _ Hs) as (c0 & a0 & a0' & _ & Hc0 & Ha0 & Hst & Hatt).
    cbn [fst snd] in *.
    assert (Hn' : (i, ARecv) ∉ sched) by (set_unfold; naive_solver).
    destruct (decide (j = i)) as [->|Hne].
    + rewrite Ha in Ha0. injection Ha0 as <-.
      assert (Hact : act ≠ ARecv) by (intros ->; set_unfold; naive_solver).
      pose proof (astep_blocked _ _ _ _ _ _ Hc Hl Hact Hst) as (He & Hw & Ho & Hr).
      assert (Ha1 : attempts s1 !! i = Some a0').
      { rewrite Hatt. apply list_lookup_insert_eq. eapply lookup_lt_Some; eauto. }
      assert (Hc1 : cap (errChan a0') = 1) by congruence.
      assert (Hl1 : length (buf (errChan a0')) = 1) by congruence.
      destruct (IH s1 s' i a0' Ha1 Hc1 Hl1 Hn' Hex) as (a' & Ha' & He' & Hw' & Ho' & Hr').
      exists a'. split; [exact Ha'|]. unfold same_wait. split_and!.
      * congruence.
      * auto.
      * intros e Hop. destruct (Ho e Hop) as [Ho1 Ho2].
        destruct (Ho' e Ho1) as [Ho3 Ho4]. split; congruence.
      * intros e Hop. eauto.
    + assert (Ha1 : attempts s1 !! i = Some a).
      { rewrite Hatt. rewrite list_lookup_insert_ne by done. exact Ha. }
      exact (IH s1 s' i a Ha1 Hc Hl Hn' Hex).
Qed.

(** *** The sends on finished and to the pool never wait *)

Lemma signal_never_blocks a :
  chan_ok a -> opc a = OpSignal -> is_Some (send (finished a) true).
Proof.
  intros [_ Hcap _ _ Hf] Hpc. rewrite Hpc in Hf. simpl in Hf.
  destruct Hf as (_ & _ & Hb). unfold send. rewrite Hb, Hcap. simpl. eauto.
Qed.

Lemma held_lookup (l : list Attempt) i a x :
  l !! i = Some a -> executor a = Some x -> 1 <= length (held l).
Proof.
  intros Hi Hx. destruct (held_insert l i a a Hi) as (rest & _ & Hp).
  rewrite Hp, Hx. simpl. lia.
Qed.

Lemma release_never_blocks cs p s i c a :
  system_ok cs p s -> length (buf p) <= cap p ->
  cs !! i = Some c -> attempts s !! i = Some a ->
  opc a = OpReturn ∨ opc a = OpUnwind ->
  is_Some (astep c (pool s) a AOp).
Proof.
  intros [Hcap Hperm Hok] Hwf Hc Ha Hpc.
  assert (Hlen : length (buf (pool s)) + length (held (attempts s)) = length (buf p)).
  { rewrite <- length_app. by rewrite Hperm. }
  unfold astep, op_step.
  destruct Hpc as [Hpc | Hpc]; rewrite Hpc; simpl;
    destruct (executor a) as [x|] eqn:Hx; eauto.
  all: pose proof (held_lookup _ _ _ _ Ha Hx); unfold send;
    case_decide; simpl; eauto; lia.
Qed.

(** *** Traces only grow *)

Lemma astep_trace c p a act p' a' :
  astep c p a act = Some (p', a') -> exists evs, trace a' = trace a ++ evs.
Proof.
  intros H. destruct a as [pc w ec fin ex t]; simpl in *.
  step_inv H; simpl in *; subst; simpl; eauto.
  all: exists []; by rewrite app_nil_r.
Qed.

Lemma execute_trace cs sched : forall s s' i a,
  attempts s !! i = Some a -> execute cs s sched = Some s' ->
  exists a' evs, attempts s' !! i = Some a' ∧ trace a' = trace a ++ evs.
Proof.
  induction sched as [|[j act] sched IH]; intros s s' i a Ha Hex; simpl in Hex.
  - injection Hex as <-. exists a, []. by rewrite app_nil_r.
  - destruct (sstep cs s (j, act)) as [s1|] eqn:Hs; simpl in Hex; [|discriminate].
    destruct (sstep_inv _ _ _ _ Hs) as (c0 & a0 & a0' & _ & Hc0 & Ha0 & Hst & Hatt).
    cbn [fst snd] in *.
    destruct (decide (j = i)) as [->|Hne].
    + rewrite Ha in Ha0. injection Ha0 as <-.
      destruct (astep_trace _ _ _ _ _ _ Hst) as (evs1 & He1).
      assert (Ha1 : attempts s1 !! i = Some a0').
      { rewrite Hatt. apply list_lookup_insert_eq. eapply lookup_lt_Some; eauto. }
      destruct (IH s1 s' i a0' Ha1 Hex) as (a' & evs2 & Ha' & He2).
      exists a', (evs1 ++ evs2). split; [exact Ha'|]. by rewrite He2, He1, app_assoc.
    + assert (Ha1 : attempts s1 !! i = Some a).
      { rewrite Hatt. rewrite list_lookup_insert_ne by done. exact Ha. }
      exact (IH s1 s' i a Ha1 Hex).
Qed.

Lemma crashed_lookup s i a :
  attempts s !! i = Some a -> opc a = OpCrashed -> crashed s = true.
Proof.
  intros Ha Hpc. unfold crashed. apply existsb_exists. exists a. split.
  - apply list_elem_of_In. eapply list_elem_of_lookup_2. exact Ha.
  - apply bool_decide_eq_true. exact Hpc.
Qed.

(** ** The claims about every schedule *)

(** C3 (as amended): after any schedule the tokens in the pool and the tokens
    held by the attempts are a permutation of the initial pool, so available
    plus outstanding is constant, also when an operation completes late after
    its timeout.  An attempt takes at most one token; when its first goroutine
    has ended, by return or by panic, it has sent back exactly what it took,
    and that deferred send never waits in a pool that started within its
    capacity.  A panic of the operation is not caught: the goroutine unwinds,
    no error is sent for it, and once it has crashed no step is left. *)
Theorem tokens_conserved cs p sched s :
  execute cs (start cs p) sched = Some s ->
  cap (pool s) = cap p ∧
  buf (pool s) ++ held (attempts s) ≡ₚ buf p ∧
  forall i c a, cs !! i = Some c -> attempts s !! i = Some a ->
    length (acquired (trace a)) <= 1 ∧
    acquired (trace a) = released (trace a) ++ option_list (executor a) ∧
    (opc a = OpExited ∨ opc a = OpCrashed -> released (trace a) = acquired (trace a)) ∧
    (length (buf p) <= cap p -> opc a = OpReturn ∨ opc a = OpUnwind ->
       is_Some (astep c (pool s) a AOp)) ∧
    (EvPanic ∈ trace a ->
       (opc a = OpUnwind ∨ opc a = OpCrashed) ∧
       sent Operation (trace a) = option_list (GetExecutorsForCommand (name c)).2) ∧
    (opc a = OpCrashed -> forall ia, sstep cs s ia = None).
Proof.
  intros Hex. pose proof (system_ok_execute _ _ _ _ Hex) as Hok.
  destruct Hok as [Hcap Hperm Hatt] eqn:E. clear E.
  split; [exact Hcap|]. split; [exact Hperm|].
  intros i c a Hc Ha. destruct (Hatt i c a Hc Ha) as [Hch Hop].
  destruct (op_ok_tokens c a Hop) as (Hlen & Hacq & Hexit).
  split_and!.
  - exact Hlen.
  - exact Hacq.
  - intros Hpc. rewrite Hacq, (Hexit Hpc). simpl. by rewrite app_nil_r.
  - intros Hwf Hpc. eapply (release_never_blocks cs p s i c a); eauto.
  - intros Hp. destruct (panic_path c a Hop Hp) as (_ & Hpc & _ & Hs). auto.
  - intros Hpc ia. unfold sstep. by rewrite (crashed_lookup s i a Ha Hpc).
Qed.

(** C6 (as amended): when GetExecutorsForCommand answers a nil pool together
    with its error, the operation is never run, no token is taken, the
    fallback is never called, and the first goroutine sends that error and
    nothing else; it is the only value on the returned channel as long as the
    select did not take the timer case.  The first two statements of the
    goroutine already deliver it. *)
Theorem resolution_error_nil_pool cs p sched i c a e :
  at_state cs p sched i c a ->
  GetExecutorsForCommand (name c) = (false, Some e) ->
  (EvRun ∉ trace a) ∧ fallback_calls (trace a) = [] ∧ acquired (trace a) = [] ∧
  sent Operation (trace a) = (if resolved (opc a) then [e] else []) ∧
  (EvTimeout ∉ trace a -> delivered (trace a) = if resolved (opc a) then [e] else []) ∧
  execute [c] (start [c] p) [(0, AOp); (0, AOp)] =
    Some (mkSystem p [mkAttempt OpAcquire WSelect (Chan [e] 1) (make 1) None
                        [EvErr Operation e]]).
Proof.
  intros Hat Hg. pose proof (at_state_ok _ _ _ _ _ _ Hat) as [Hch Hop].
  assert (Hg1 : (GetExecutorsForCommand (name c)).1 = false) by (by rewrite Hg).
  destruct (nil_pool_path c a Hop Hg1) as (H1 & H2 & H3 & H4).
  rewrite Hg in H4. simpl in H4.
  split_and!; auto.
  - intros Hn. rewrite (delivered_no_timeout c a); auto. by split.
  - unfold start, execute, sstep, astep, op_step. simpl. rewrite Hg. reflexivity.
Qed.



(** C9: when GetExecutorsForCommand answers an error together with a non-nil
    pool, the first goroutine sends the error and then still takes a token and
    calls run; an error that run returns is a second value on the returned
    channel.  With a nil pool next to the error no operation is run. *)
Theorem resolution_error_and_pool c e :
  (GetExecutorsForCommand (name c)).2 = Some e ->
  ((GetExecutorsForCommand (name c)).1 = true ->
   forall x rest n,
     execute [c] (start [c] (Chan (x :: rest) n)) [(0, AOp); (0, AOp); (0, AOp)] =
       Some (mkSystem (Chan rest n)
               [mkAttempt OpRunning WSelect (Chan [e] 1) (make 1) (Some x)
                  [EvErr Operation e; EvAcquire x; EvRun]]) ∧
     forall runErr, run c = Returns (Some runErr) -> fallback c = None ->
       exists s a,
         execute [c] (start [c] (Chan (x :: rest) n))
           [(0, AOp); (0, AOp); (0, AOp); (0, AOp); (0, ARecv); (0, AOp)] = Some s ∧
         attempts s !! 0 = Some a ∧ delivered (trace a) = [e; runErr]) ∧
  ((GetExecutorsForCommand (name c)).1 = false ->
   forall cs p sched i a,
     at_state cs p sched i c a -> (EvRun ∉ trace a) ∧ fallback_calls (trace a) = []).
Proof.
  intros Hg2. split.
  - intros Hg1 x rest n. split.
    + unfold start, execute, sstep, astep, op_step. simpl. rewrite Hg2. simpl.
      rewrite Hg1. reflexivity.
    + intros runErr Hr Hf. eexists. eexists.
      unfold start, execute, sstep, astep, op_step. simpl. rewrite Hg2. simpl.
      rewrite Hg1. simpl. rewrite Hr, Hf. simpl. split_and!; reflexivity.
  - intros Hg1 cs p sched i a Hat. pose proof (at_state_ok _ _ _ _ _ _ Hat) as [_ Hop].
    destruct (nil_pool_path c a Hop Hg1) as (H1 & H2 & _). auto.
Qed.

End Hystrix.

(** ** The claims at concrete calls *)

(** C1: evaluated at a call whose operation fails just before the timer fires.
    Both goroutines write to the returned channel.  The operation's error fills
    the one slot, and the watcher then stands at line 71: as long as the
    caller does not receive, no schedule lets it finish, and a caller that
    keeps receiving reads two outcomes. *)
Theorem Go_double_write :
  exists s a,
    execute registry_ok [failing_call] (start [failing_call] pool1) timeout_after_error
      = Some s ∧
    attempts s !! 0 = Some a ∧
    opc a = OpExited ∧ wpc a = WSendTimeout ∧ buf (errChan a) = [boom] ∧
    (forall sched s',
       (0, ARecv) ∉ sched ->
       execute registry_ok [failing_call] s sched = Some s' ->
       exists a', attempts s' !! 0 = Some a' ∧ wpc a' = WSendTimeout) ∧
    (exists s2 a2,
       execute registry_ok [failing_call] s [(0, ARecv); (0, AWatchSend); (0, ARecv)]
         = Some s2 ∧
       attempts s2 !! 0 = Some a2 ∧
       received (trace a2) = [boom; errors_New "timeout"]).
Proof.
  eexists. eexists. split; [vm_compute; reflexivity|]. split; [reflexivity|].
  split_and!; try reflexivity.
  - intros sched s' Hn Hex.
    edestruct (blocked_without_recv registry_ok [failing_call] sched) as (a' & Ha' & Hw);
      [| | | exact Hn | exact Hex |]; [reflexivity | reflexivity | reflexivity |].
    exists a'. split; [exact Ha'|]. destruct Hw as (_ & Hw & _). apply Hw. reflexivity.
  - eexists. eexists. split; [vm_compute; reflexivity|]. split; reflexivity.
Qed.

(** C10: evaluated at two calls.  With a failing fallback applied, operation
    and fallback have ended and [finished] was sent, yet the watcher, which
    took the timer case, stands at line 71 behind the unread composite error
    and no schedule without a receive of the caller lets it end.  With the
    timeout buffered first, the first goroutine stands at line 53 with its
    error: without a receive of the caller it never reaches line 64, nothing is
    sent on [finished] and its token stays out of the pool. *)
Theorem finished_signal_hazard :
  (exists s a,
     execute registry_ok [failing_fallback_call] (start [failing_fallback_call] pool1)
       timeout_after_error = Some s ∧
     attempts s !! 0 = Some a ∧
     opc a = OpExited ∧ fallback_calls (trace a) = [boom] ∧ EvFinished ∈ trace a ∧
     wpc a = WSendTimeout ∧
     forall sched s',
       (0, ARecv) ∉ sched ->
       execute registry_ok [failing_fallback_call] s sched = Some s' ->
       exists a', attempts s' !! 0 = Some a' ∧ wpc a' = WSendTimeout) ∧
  (exists s a,
     execute registry_ok [failing_call] (start [failing_call] pool1) error_after_timeout
       = Some s ∧
     attempts s !! 0 = Some a ∧
     opc a = OpSendErr boom ∧ wpc a = WExited ∧ buf (errChan a) = [errors_New "timeout"] ∧
     forall sched s',
       (0, ARecv) ∉ sched ->
       execute registry_ok [failing_call] s sched = Some s' ->
       exists a', attempts s' !! 0 = Some a' ∧
         opc a' = OpSendErr boom ∧ (EvFinished ∉ trace a') ∧ executor a' = Some 0).
Proof.
  split.
  - eexists. eexists. split; [vm_compute; reflexivity|]. split; [reflexivity|].
    split_and!; try reflexivity.
    + apply (bool_decide_unpack _). vm_compute. exact I.
    + intros sched s' Hn Hex.
      edestruct (blocked_without_recv registry_ok [failing_fallback_call] sched)
        as (a' & Ha' & Hw); [| | | exact Hn | exact Hex |];
        [reflexivity | reflexivity | reflexivity |].
      exists a'. split; [exact Ha'|]. destruct Hw as (_ & Hw & _). apply Hw. reflexivity.
  - eexists. eexists. split; [vm_compute; reflexivity|]. split; [reflexivity|].
    split_and!; try reflexivity.
    intros sched s' Hn Hex.
    edestruct (blocked_without_recv registry_ok [failing_call] sched)
      as (a' & Ha' & Hw); [| | | exact Hn | exact Hex |];
      [reflexivity | reflexivity | reflexivity |].
    exists a'. split; [exact Ha'|].
    destruct Hw as (_ & _ & Ho & _). destruct (Ho boom eq_refl) as [Hpc Hx].
    split; [exact Hpc|]. split; [|exact Hx].
    assert (Hat : at_state registry_ok [failing_call] pool1 (error_after_timeout ++ sched)
                    0 failing_call a').
    { exists s'. split; [|split; [reflexivity | exact Ha']].
      rewrite execute_app.
      replace (execute registry_ok [failing_call] (start [failing_call] pool1)
                 error_after_timeout) with
        (Some (after registry_ok [failing_call] pool1 error_after_timeout))
        by (vm_compute; reflexivity).
      exact Hex. }
    destruct (at_state_ok _ _ _ _ _ _ _ Hat) as [[_ _ _ _ Hf] _].
    rewrite Hpc in Hf. simpl in Hf. tauto.
Qed.

(** C2: evaluated without a fallback.  [tryFallback] answers nil for a nil
    fallback, whatever the error; a call that finds the pool empty therefore
    ends with both goroutines done and nothing on the returned channel, and no
    step is left that could still deliver the rejection.  After any schedule,
    an attempt without fallback that did not get to run has sent nothing. *)
Theorem rejection_dropped_without_fallback :
  (forall e, tryFallback None e = None) ∧
  (exists s a,
     execute registry_ok [busy_call; plain_call] (start [busy_call; plain_call] pool1)
       rejected_schedule = Some s ∧
     attempts s !! 1 = Some a ∧
     trace a = [EvFinished; EvStop] ∧ opc a = OpExited ∧ wpc a = WExited ∧
     delivered (trace a) = [] ∧ buf (errChan a) = [] ∧
     forall act, sstep registry_ok [busy_call; plain_call] s (1, act) = None) ∧
  (forall cs p sched i c a,
     at_state registry_ok cs p sched i c a ->
     fallback c = None -> EvRun ∉ trace a -> sent Operation (trace a) = []).
Proof.
  split_and!.
  - reflexivity.
  - eexists. eexists. split; [vm_compute; reflexivity|]. split; [reflexivity|].
    split_and!; try reflexivity. intros []; reflexivity.
  - intros cs p sched i c a Hat Hf Hn.
    destruct (at_state_ok _ _ _ _ _ _ _ Hat) as [_ Hop].
    destruct (rejection_path registry_ok c a Hop Hf Hn) as [H|H]; exact H.
Qed.

(** C4: evaluated at an operation that never returns, with a fallback that
    would turn any error into nil.  When the timer fires the watcher puts
    errors.New("timeout") itself on the returned channel; the fallback is not
    called then, nor by any schedule that follows. *)
Theorem timeout_bypasses_fallback :
  exists s a,
    execute registry_ok [slow_call] (start [slow_call] pool1) timeout_schedule = Some s ∧
    attempts s !! 0 = Some a ∧
    delivered (trace a) = [errors_New "timeout"] ∧ fallback_calls (trace a) = [] ∧
    forall sched s',
      execute registry_ok [slow_call] s sched = Some s' ->
      exists a', attempts s' !! 0 = Some a' ∧
        fallback_calls (trace a') = [] ∧ sent Watcher (trace a') = [errors_New "timeout"].
Proof.
  eexists. eexists. split; [vm_compute; reflexivity|]. split; [reflexivity|].
  split_and!; try reflexivity.
  intros sched s' Hex.
  match type of Hex with
  | execute _ _ ?s _ = _ =>
      destruct (execute_trace registry_ok [slow_call] sched s s' 0
                  (List.hd (Go slow_call) (attempts s)) eq_refl Hex)
        as (a' & evs & Ha' & Ht)
  end.
  exists a'. split; [exact Ha'|].
  assert (Hat : at_state registry_ok [slow_call] pool1 (timeout_schedule ++ sched)
                  0 slow_call a').
  { exists s'. split; [|split; [reflexivity | exact Ha']].
    rewrite execute_app.
    replace (execute registry_ok [slow_call] (start [slow_call] pool1) timeout_schedule)
      with (Some (after registry_ok [slow_call] pool1 timeout_schedule))
      by (vm_compute; reflexivity).
    exact Hex. }
  destruct (at_state_ok _ _ _ _ _ _ _ Hat) as [[_ _ _ Hw _] Hop].
  simpl in Ht. split.
  - destruct (fallback_calls_path registry_ok slow_call a' Hop) as [H|[[_ H]|(e & H & _)]].
    + exact H.
    + exfalso. apply H. rewrite Ht. set_solver.
    + discriminate.
  - assert (Hin : EvTimeout ∈ trace a') by (rewrite Ht; set_solver).
    assert (Hs : sent Watcher (trace a') = [errors_New "timeout"] ++ sent Watcher evs).
    { rewrite Ht. reflexivity. }
    destruct (wpc a'); [naive_solver | | ].
    + destruct Hw as (_ & _ & Hw). rewrite Hw in Hs. discriminate.
    + destruct Hw as [(_ & Hw & _) | (_ & _ & Hw)]; [contradiction | exact Hw].
Qed.

(** C3, counterexample: the operation panics.  The deferred send returns the
    token, but nothing recovers the panic: the goroutine crashes, no error was
    put on the returned channel, and no step of any goroutine is left. *)
Lemma panic_not_recovered :
  exists s a,
    execute registry_ok [panicking_call] (start [panicking_call] pool1) panic_schedule
      = Some s ∧
    attempts s !! 0 = Some a ∧
    trace a = [EvAcquire 0; EvRun; EvPanic; EvRelease 0] ∧
    opc a = OpCrashed ∧ delivered (trace a) = [] ∧ buf (errChan a) = [] ∧
    crashed s = true ∧
    forall ia, sstep registry_ok [panicking_call] s ia = None.
Proof.
  eexists. eexists. split; [vm_compute; reflexivity|]. split; [reflexivity|].
  split_and!; try reflexivity.
Qed.


(** C6, counterexample: the resolution fails but the pool is not nil.  The
    error is sent, and then a token is taken, run is called and the fallback
    is called with the error of run. *)
Lemma resolution_error_still_runs :
  exists s a,
    execute registry_both [recovering_call] (start [recovering_call] pool1)
      [(0, AOp); (0, AOp); (0, AOp); (0, AOp)] = Some s ∧
    attempts s !! 0 = Some a ∧
    (registry_both (name recovering_call)).2 = Some bad_config ∧
    trace a = [EvErr Operation bad_config; EvAcquire 0; EvRun; EvFallback boom].
Proof.
  eexists. eexists. split; [vm_compute; reflexivity|]. split_and!; reflexivity.
Qed.





Lemma resolution_error_nil_pool_witness :
  let sched := [(0, AOp); (0, AOp); (0, AOp); (0, AOp); (0, AOp); (0, AWatchFinished)] in
  let a := attempt_after registry_unknown [recovering_call] pool1 sched 0 in
  at_state registry_unknown [recovering_call] pool1 sched 0 recovering_call a ∧
  registry_unknown (name recovering_call) = (false, Some bad_config) ∧
  opc a = OpExited ∧
  (EvRun ∉ trace a) ∧ fallback_calls (trace a) = [] ∧ acquired (trace a) = [] ∧
  sent Operation (trace a) = [bad_config] ∧ delivered (trace a) = [bad_config].
Proof.
  intros sched a.
  assert (Hat : at_state registry_unknown [recovering_call] pool1 sched 0 recovering_call a).
  { eexists. split; [vm_compute; reflexivity|]. split; reflexivity. }
  split; [exact Hat|]. split; [reflexivity|]. split; [reflexivity|].
  assert (Hn : EvTimeout ∉ trace a) by (apply (bool_decide_unpack _); vm_compute; exact I).
  destruct (resolution_error_nil_pool registry_unknown [recovering_call] pool1 sched 0
              recovering_call a bad_config Hat eq_refl) as (H1 & H2 & H3 & H4 & H5 & _).
  split_and!; auto.
Defined.

Lemma resolution_error_and_pool_witness :
  (registry_both (name failing_call)).2 = Some bad_config ∧
  (registry_both (name failing_call)).1 = true ∧
  execute registry_both [failing_call] (start [failing_call] pool1)
    [(0, AOp); (0, AOp); (0, AOp)] =
    Some (mkSystem (Chan [] 1)
            [mkAttempt OpRunning WSelect (Chan [bad_config] 1) (make 1) (Some 0)
               [EvErr Operation bad_config; EvAcquire 0; EvRun]]) ∧
  exists s a,
    execute registry_both [failing_call] (start [failing_call] pool1)
      [(0, AOp); (0, AOp); (0, AOp); (0, AOp); (0, ARecv); (0, AOp)] = Some s ∧
    attempts s !! 0 = Some a ∧ delivered (trace a) = [bad_config; boom].
Proof.
  split; [reflexivity|]. split; [reflexivity|].
  destruct (resolution_error_and_pool registry_both failing_call bad_config eq_refl)
    as [H _].
  destruct (H eq_refl 0 [] 1) as [H1 H2].
  split; [exact H1|]. exact (H2 boom eq_refl eq_refl).
Defined.

Lemma tokens_conserved_witness :
  let s := after registry_ok [busy_call; failing_call; panicking_call] pool1
             [(1, AOp); (1, AOp); (0, AOp); (0, AOp); (1, AWatchTimeout); (1, AWatchSend)] in
  execute registry_ok [busy_call; failing_call; panicking_call]
    (start [busy_call; failing_call; panicking_call] pool1)
    [(1, AOp); (1, AOp); (0, AOp); (0, AOp); (1, AWatchTimeout); (1, AWatchSend)] = Some s ∧
  cap (pool s) = 1 ∧ buf (pool s) ++ held (attempts s) ≡ₚ [0].
Proof.
  intros s.
  assert (Hex : execute registry_ok [busy_call; failing_call; panicking_call]
                  (start [busy_call; failing_call; panicking_call] pool1)
                  [(1, AOp); (1, AOp); (0, AOp); (0, AOp); (1, AWatchTimeout); (1, AWatchSend)]
                = Some s) by (vm_compute; reflexivity).
  split; [exact Hex|].
  destruct (tokens_conserved registry_ok _ pool1 _ s Hex) as (H1 & H2 & _).
  split; [exact H1 | exact H2].
Defined.
